(** * man_help: acquisition of help text, flag extraction and the selection model

    Shallow embedding of [src/src/main.rs].  Rust strings are modelled as the
    sequence of their Unicode scalar values ([list Z]); the UTF-8 byte length
    used by [str::len] is computed from it.  The regex of [fetch_flags] is
    embedded as a backtracking matcher that enumerates the matches at a
    position in the priority order of the regex crate (leftmost-first,
    greedy repetitions longest first).  Child processes are an oracle
    [run_with_timeout] from a command description to its outcome. *)

From Stdlib Require Import ZArith List String Ascii Bool Lia.
Import ListNotations.
Open Scope Z_scope.

(** ** Text *)

Definition text := list Z.

(** ASCII string literal as a text. *)
Fixpoint lit (s : string) : text :=
  match s with
  | EmptyString => []
  | String c s' => Z.of_nat (nat_of_ascii c) :: lit s'
  end.

Definition NL : Z := 10.

Definition text_eqb (a b : text) : bool :=
  if list_eq_dec Z.eq_dec a b then true else false.

(** Unicode [White_Space]: the class [\s] of the regex crate and the
    predicate used by [str::trim]. *)
Definition is_whitespace (c : Z) : bool :=
  ((9 <=? c) && (c <=? 13)) || (c =? 32) || (c =? 133) || (c =? 160)
  || (c =? 5760) || ((8192 <=? c) && (c <=? 8202))
  || (c =? 8232) || (c =? 8233) || (c =? 8239) || (c =? 8287) || (c =? 12288).

Definition is_alnum (c : Z) : bool :=
  ((65 <=? c) && (c <=? 90)) || ((97 <=? c) && (c <=? 122))
  || ((48 <=? c) && (c <=? 57)).

(** [[a-zA-Z0-9?]] *)
Definition is_short_char (c : Z) : bool := is_alnum c || (c =? 63).

(** [[a-zA-Z0-9\-_]] *)
Definition is_long_char (c : Z) : bool := is_alnum c || (c =? 45) || (c =? 95).

(** [.]: every character but a line feed. *)
Definition is_dot (c : Z) : bool := negb (c =? NL).

(** UTF-8 length of one scalar value, and [str::len]. *)
Definition utf8_width (c : Z) : nat :=
  if c <? 128 then 1%nat else if c <? 2048 then 2%nat
  else if c <? 65536 then 3%nat else 4%nat.

Definition str_len (t : text) : nat := fold_right (fun c n => (utf8_width c + n)%nat) 0%nat t.

(** [str::trim]. *)
Fixpoint trim_start (t : text) : text :=
  match t with
  | c :: t' => if is_whitespace c then trim_start t' else t
  | [] => []
  end.

Definition trim (t : text) : text := rev (trim_start (rev (trim_start t))).

Fixpoint starts_with (p t : text) : bool :=
  match p, t with
  | [], _ => true
  | a :: p', b :: t' => (a =? b) && starts_with p' t'
  | _ :: _, [] => false
  end.

(** [str::matches(pat).count()]: non-overlapping matches, scanned from the
    left, the search resuming after each match.  [skip] counts the
    characters of the last match still to be passed over. *)
Fixpoint matches_count_from (pat : text) (skip : nat) (t : text) : nat :=
  match t with
  | [] => 0%nat
  | c :: t' =>
      match skip with
      | S k => matches_count_from pat k t'
      | O =>
          if starts_with pat t
          then S (matches_count_from pat (Nat.pred (List.length pat)) t')
          else matches_count_from pat O t'
      end
  end.

Definition matches_count (pat t : text) : nat := matches_count_from pat O t.

(** The number of positions of [t] at which [pat] occurs (overlaps
    included): the reference count of the acceptance heuristic. *)
Fixpoint occurrences (pat t : text) : nat :=
  match t with
  | [] => 0%nat
  | _ :: t' => ((if starts_with pat t then 1 else 0) + occurrences pat t')%nat
  end.

(** ** The flag-line regex

    [(?m)^\s+(?:(?P<short>-[a-zA-Z0-9?])(?:,?\s+(?P<long>--[a-zA-Z0-9\-_]+))?
    |(?P<long_only>--[a-zA-Z0-9\-_]+))\s+(?P<desc>.+)$] *)

Record Captures := {
  cap_short : option text;
  cap_long : option text;
  cap_long_only : option text;
  cap_desc : text
}.

(** Splits [t] into a non-empty run of [p]-characters and the rest, longest
    run first: the alternatives of a greedy [p+]. *)
Fixpoint plus_splits (p : Z -> bool) (t : text) : list (text * text) :=
  match t with
  | c :: t' =>
      if p c
      then map (fun '(r, rest) => (c :: r, rest)) (plus_splits p t') ++ [([c], t')]
      else []
  | [] => []
  end.

(** [-[a-zA-Z0-9?]] *)
Definition short_tok (t : text) : list (text * text) :=
  match t with
  | d :: c :: t' => if (d =? 45) && is_short_char c then [([d; c], t')] else []
  | _ => []
  end.

(** [--[a-zA-Z0-9\-_]+] *)
Definition long_tok (t : text) : list (text * text) :=
  match t with
  | d1 :: d2 :: t' =>
      if (d1 =? 45) && (d2 =? 45)
      then map (fun '(r, rest) => (d1 :: d2 :: r, rest)) (plus_splits is_long_char t')
      else []
  | _ => []
  end.

(** [,?] (greedy: with the comma first). *)
Definition opt_comma (t : text) : list text :=
  match t with
  | c :: t' => if c =? 44 then [t'; t] else [t]
  | [] => [t]
  end.

(** [$] in multi-line mode. *)
Definition at_line_end (t : text) : bool :=
  match t with
  | [] => true
  | c :: _ => c =? NL
  end.

(** [\s+(?P<desc>.+)$] *)
Definition desc_tail (t : text) : list (text * text) :=
  flat_map (fun '(_, r) =>
    flat_map (fun '(d, r') => if at_line_end r' then [(d, r')] else [])
             (plus_splits is_dot r))
    (plus_splits is_whitespace t).

(** The optional group [(?:,?\s+(?P<long>...))?], greedy: present first. *)
Definition opt_long (t : text) : list (option text * text) :=
  flat_map (fun r =>
    flat_map (fun '(_, r') => map (fun '(l, r'') => (Some l, r'')) (long_tok r'))
             (plus_splits is_whitespace r))
    (opt_comma t) ++ [(None, t)].

(** All matches of the regex starting at [t] (a line start), in priority
    order, with the text left after each. *)
Definition matches_at (t : text) : list (Captures * text) :=
  flat_map (fun '(_, r) =>
    (flat_map (fun '(s, r1) =>
       flat_map (fun '(l, r2) =>
         map (fun '(d, r3) =>
           ({| cap_short := Some s; cap_long := l; cap_long_only := None; cap_desc := d |}, r3))
           (desc_tail r2))
         (opt_long r1))
       (short_tok r))
    ++
    (flat_map (fun '(l, r1) =>
       map (fun '(d, r2) =>
         ({| cap_short := None; cap_long := None; cap_long_only := Some l; cap_desc := d |}, r2))
         (desc_tail r1))
       (long_tok r)))
    (plus_splits is_whitespace t).

(** [^] in multi-line mode: start of the text or after a line feed. *)
Definition at_line_start (prev : option Z) : bool :=
  match prev with
  | None => true
  | Some c => c =? NL
  end.

(** The match the regex crate reports at this position, with its length. *)
Definition first_match (prev : option Z) (t : text) : option (Captures * nat) :=
  if at_line_start prev then
    match matches_at t with
    | (cap, rest) :: _ => Some (cap, (List.length t - List.length rest)%nat)
    | [] => None
    end
  else None.

(** [Regex::captures_iter]: successive non-overlapping leftmost-first
    matches; [skip] counts the characters of the last match still to be
    passed over before the search resumes. *)
Fixpoint captures_from (skip : nat) (prev : option Z) (t : text) : list Captures :=
  match t with
  | [] => []
  | c :: t' =>
      match skip with
      | S k => captures_from k (Some c) t'
      | O =>
          match first_match prev t with
          | Some (cap, n) => cap :: captures_from (Nat.pred n) (Some c) t'
          | None => captures_from O (Some c) t'
          end
      end
  end.

Definition captures_iter (t : text) : list Captures := captures_from O None t.

(** ** Flags and errors *)

Inductive Language := System | English.

Record Flag := {
  short : option text;
  long : option text;
  desc : text;
  selected : bool
}.

(** [Flag::as_arg]: the long form if present, else the short form, else
    the empty string. *)
Definition as_arg (f : Flag) : text :=
  match long f with
  | Some l => l
  | None => match short f with Some s => s | None => [] end
  end.

Definition set_selected (b : bool) (f : Flag) : Flag :=
  {| short := short f; long := long f; desc := desc f; selected := b |}.

(** The [anyhow] errors of the program, one constructor per message. *)
Inductive Error :=
| SpawnFailed       (* an [io::Error] from [spawn], [try_wait] or [wait_with_output] *)
| CommandFailed     (* "Команда вернула ошибку" *)
| Timeout           (* "Таймаут выполнения команды" *)
| NoHelpAvailable   (* "Не удалось получить справку." *)
| NoFlagsFound.     (* "Текст справки получен, но флаги не найдены." *)

Inductive result (A : Type) :=
| Ok : A -> result A
| Err : Error -> result A.
Arguments Ok {A} _.
Arguments Err {A} _.

(** ** Extraction: the loop of [fetch_flags] over [re.captures_iter(&text)] *)

(** [Option::is_some]. *)
Definition is_some {A} (o : option A) : bool :=
  match o with Some _ => true | None => false end.

(** One capture, turned into a flag or skipped ([continue]). *)
Definition flag_of_captures (cap : Captures) : option Flag :=
  let short := cap_short cap in
  let long := match cap_long cap with Some l => Some l | None => cap_long_only cap end in
  let desc := trim (cap_desc cap) in
  if is_some short || is_some long then
    if match short with Some s => negb (starts_with [45] s) | None => false end then None
    else if match long with Some l => negb (starts_with [45; 45] l) | None => false end then None
    else if Nat.ltb (str_len desc) 2 then None
    else Some {| short := short; long := long; desc := desc; selected := false |}
  else None.

Fixpoint collect_flags (caps : list Captures) : list Flag :=
  match caps with
  | [] => []
  | cap :: caps' =>
      match flag_of_captures cap with
      | Some f => f :: collect_flags caps'
      | None => collect_flags caps'
      end
  end.

(** [fetch_flags] after its text has been acquired. *)
Definition extract (t : text) : result (list Flag) :=
  match collect_flags (captures_iter t) with
  | [] => Err NoFlagsFound
  | flags => Ok flags
  end.

(** ** Acquisition *)

(** A [std::process::Command] with the timeout it is run under. *)
Record Cmd := {
  program : text;
  cmd_args : list text;
  cmd_env : list (text * text);
  timeout_secs : Z
}.

Definition help_cmd (cmd_name : text) (lang : Language) : Cmd :=
  {| program := cmd_name;
     cmd_args := [lit "--help"];
     cmd_env := [(lit "COLUMNS", lit "500")]
                ++ match lang with English => [(lit "LC_ALL", lit "C")] | System => [] end;
     timeout_secs := 1 |}.

Definition man_cmd (cmd_name : text) (lang : Language) : Cmd :=
  {| program := lit "man";
     cmd_args := [cmd_name];
     cmd_env := [(lit "PAGER", lit "cat"); (lit "MANROFFOPT", lit "-c");
                 (lit "GROFF_NO_SGR", lit "1"); (lit "COLUMNS", lit "500")]
                ++ match lang with English => [(lit "LC_ALL", lit "C")] | System => [] end;
     timeout_secs := 2 |}.

(** The heuristic of the [--help] phase. *)
Definition help_text_accepted (t : text) : bool :=
  Nat.leb 3 (matches_count (lit " -") t) || Nat.leb 3 (matches_count [NL; 45] t).

Section Acquisition.

(** [run_with_timeout]: the outcome of running a command under its
    timeout (stdout on a successful exit; [CommandFailed], [Timeout] or
    [SpawnFailed] otherwise). *)
Variable run_with_timeout : Cmd -> result text.

(** [fetch_raw_help], returning the commands it spawned, in order, with its
    result. *)
Definition fetch_raw_help (cmd_name : text) (lang : Language) : list Cmd * result text :=
  let hc := help_cmd cmd_name lang in
  let man_phase :=
    let mc := man_cmd cmd_name lang in
    ([hc; mc], match run_with_timeout mc with
               | Ok t => Ok t
               | Err _ => Err NoHelpAvailable
               end) in
  match run_with_timeout hc with
  | Ok t => if help_text_accepted t then ([hc], Ok t) else man_phase
  | Err _ => man_phase
  end.

Definition fetch_flags (cmd_name : text) (lang : Language) : result (list Flag) :=
  match snd (fetch_raw_help cmd_name lang) with
  | Ok t => extract t
  | Err e => Err e
  end.

End Acquisition.

(** ** The application state ([App]) *)

Inductive ExitAction := Execute | Print | Cancel.

(** [list_state] is the selected index of the [ListState]. *)
Record App := {
  target_cmd : text;
  flags : list Flag;
  list_state : option nat;
  should_quit : bool;
  exit_action : ExitAction;
  current_lang : Language
}.

Definition with_list_state (app : App) (s : option nat) : App :=
  {| target_cmd := target_cmd app; flags := flags app; list_state := s;
     should_quit := should_quit app; exit_action := exit_action app;
     current_lang := current_lang app |}.

Definition with_flags (app : App) (fs : list Flag) : App :=
  {| target_cmd := target_cmd app; flags := fs; list_state := list_state app;
     should_quit := should_quit app; exit_action := exit_action app;
     current_lang := current_lang app |}.

(** [App::new] *)
Definition app_new (target_cmd : text) (flags : list Flag) : App :=
  {| target_cmd := target_cmd; flags := flags;
     list_state := match flags with [] => None | _ => Some 0%nat end;
     should_quit := false; exit_action := Cancel; current_lang := System |}.

(** [App::next] *)
Definition next (app : App) : App :=
  match flags app with
  | [] => app
  | _ =>
      let i := match list_state app with
               | Some i => if Nat.leb (List.length (flags app) - 1) i then 0%nat else S i
               | None => 0%nat
               end in
      with_list_state app (Some i)
  end.

(** [App::previous] *)
Definition previous (app : App) : App :=
  match flags app with
  | [] => app
  | _ =>
      let i := match list_state app with
               | Some i => if Nat.eqb i 0 then (List.length (flags app) - 1)%nat else (i - 1)%nat
               | None => 0%nat
               end in
      with_list_state app (Some i)
  end.

(** [self.flags[i] = f(self.flags[i])] for an in-bounds index. *)
Fixpoint update_nth {A} (i : nat) (g : A -> A) (l : list A) : list A :=
  match l, i with
  | [], _ => []
  | x :: l', O => g x :: l'
  | x :: l', S i' => x :: update_nth i' g l'
  end.

(** [App::toggle_selection] *)
Definition toggle_selection (app : App) : App :=
  match list_state app with
  | Some i =>
      if Nat.ltb i (List.length (flags app))
      then with_flags app (update_nth i (fun f => set_selected (negb (selected f)) f) (flags app))
      else app
  | None => app
  end.

(** [App::get_selected_args] *)
Definition get_selected_args (app : App) : list text :=
  map as_arg (filter selected (flags app)).

(** [Vec::contains] on strings. *)
Definition contains (xs : list text) (x : text) : bool := existsb (text_eqb x) xs.

Definition other_language (l : Language) : Language :=
  match l with System => English | English => System end.

(** [App::toggle_language] *)
Definition toggle_language (run_with_timeout : Cmd -> result text) (app : App) : App :=
  let new_lang := other_language (current_lang app) in
  let selected_args := get_selected_args app in
  match fetch_flags run_with_timeout (target_cmd app) new_lang with
  | Ok new_flags =>
      let new_flags :=
        map (fun f => if contains selected_args (as_arg f) then set_selected true f else f)
            new_flags in
      {| target_cmd := target_cmd app; flags := new_flags;
         list_state := match list_state app with
                       | Some i => if Nat.leb (List.length new_flags) i then Some 0%nat else Some i
                       | None => None
                       end;
         should_quit := should_quit app; exit_action := exit_action app;
         current_lang := new_lang |}
  | Err _ => app
  end.

(** [args.join(" ")] *)
Fixpoint join (sep : text) (xs : list text) : text :=
  match xs with
  | [] => []
  | [x] => x
  | x :: xs' => x ++ sep ++ join sep xs'
  end.

(** [App::build_preview_string] *)
Definition build_preview_string (app : App) : text :=
  let args := get_selected_args app in
  match args with
  | [] => target_cmd app
  | _ => target_cmd app ++ lit " " ++ join (lit " ") args
  end.

(** ** Rendering of a flag ([Flag::to_display_string]) *)

(** The [flags_str] of [to_display_string]. *)
Definition flags_str (f : Flag) : text :=
  match short f, long f with
  | Some s, Some l => s ++ lit ", " ++ l
  | Some s, None => s
  | None, Some l => lit "    " ++ l
  | None, None => lit "???"
  end.

(** [format!("{:<w}", s)]: left-aligned, padded with spaces up to [w]
    characters. *)
Definition pad_right (w : nat) (s : text) : text :=
  s ++ repeat 32 (w - List.length s)%nat.

(** [Flag::to_display_string]: [format!("{} {:<25} | {}", checkmark,
    flags_str, self.desc)]. *)
Definition to_display_string (f : Flag) : text :=
  (if selected f then lit "[x]" else lit "[ ]") ++ lit " " ++
  pad_right 25 (flags_str f) ++ lit " | " ++ desc f.

(** ** The poll loop of [run_with_timeout] *)

(** What one [child.try_wait()] reports. *)
Inductive TryWait := Exited | StillRunning | WaitFailed.

(** One iteration of the loop: the time [start.elapsed()] reads (in
    milliseconds) and what [try_wait] reported. *)
Record Poll := {
  poll_elapsed_ms : Z;
  poll_status : TryWait
}.

(** The loop over the observed iterations, given what [wait_with_output]
    yields once the child has exited ([None] for an [io::Error], else the
    exit success and the lossily decoded stdout).  The result pairs the
    outcome with whether [child.kill()] was called; [None] when the loop is
    still polling after the observed iterations. *)
Fixpoint poll_loop (timeout_ms : Z) (output : option (bool * text)) (polls : list Poll)
  : option (result text * bool) :=
  match polls with
  | [] => None
  | p :: ps =>
      match poll_status p with
      | Exited =>
          Some (match output with
                | Some (true, out) => Ok out
                | Some (false, _) => Err CommandFailed
                | None => Err SpawnFailed
                end, false)
      | StillRunning =>
          if timeout_ms <? poll_elapsed_ms p then Some (Err Timeout, true)
          else poll_loop timeout_ms output ps
      | WaitFailed => Some (Err SpawnFailed, false)
      end
  end.

(** [run_with_timeout]: [spawn()?] then the poll loop. *)
Definition run_with_timeout_obs (spawn_ok : bool) (timeout_ms : Z)
  (output : option (bool * text)) (polls : list Poll) : option (result text * bool) :=
  if spawn_ok then poll_loop timeout_ms output polls else Some (Err SpawnFailed, false).

(** ** The event loop ([run_app]) and [main] *)

Inductive KeyCode := KChar (c : Z) | KEsc | KDown | KUp | KEnter | KOther.
Inductive KeyEventKind := Press | Release | Repeat.
Inductive Event := KeyEvent (code : KeyCode) (kind : KeyEventKind) | OtherEvent.

Definition with_exit (app : App) (a : ExitAction) : App :=
  {| target_cmd := target_cmd app; flags := flags app; list_state := list_state app;
     should_quit := true; exit_action := a; current_lang := current_lang app |}.

(** The [match key.code] of [run_app]. *)
Definition handle_key (run_with_timeout : Cmd -> result text) (app : App) (code : KeyCode) : App :=
  match code with
  | KEsc => with_exit app Cancel
  | KDown => next app
  | KUp => previous app
  | KEnter => with_exit app Execute
  | KChar c =>
      if c =? 113 then with_exit app Cancel            (* 'q' *)
      else if c =? 106 then next app                   (* 'j' *)
      else if c =? 107 then previous app               (* 'k' *)
      else if c =? 32 then toggle_selection app        (* ' ' *)
      else if c =? 112 then with_exit app Print        (* 'p' *)
      else if c =? 108 then toggle_language run_with_timeout app  (* 'l' *)
      else app
  | KOther => app
  end.

(** What an iteration of [run_app] reads after drawing: [event::poll]
    failing, no event within 100 ms, [event::read] failing, or the event
    read. *)
Inductive Input := PollFailed | NoEvent | ReadFailed | EventRead (e : Event).

(** One observed iteration of [run_app].  [terminal.draw(|f| ui(f, app))]
    either fails ([None]) or leaves the list state that
    [render_stateful_widget] wrote back into [app.list_state] (the widget
    library may move the selection while rendering, so it is observed, not
    computed); [ui] changes nothing else of the [App]. *)
Record Tick := {
  tick_draw : option (option nat);
  tick_input : Input
}.

(** The [io::Result<()>] of [run_app], with the [App] it leaves. *)
Inductive UiResult := UiOk (app : App) | UiErr.

(** Only key presses are handled. *)
Definition handle_input (run_with_timeout : Cmd -> result text) (app : App) (i : Input) : App :=
  match i with
  | EventRead (KeyEvent code Press) => handle_key run_with_timeout app code
  | _ => app
  end.

(** [run_app] over the observed iterations: [Some] once it returns (on an
    error of [draw], [poll] or [read], or once [should_quit] is set),
    [None] while still running after them. *)
Fixpoint run_app (run_with_timeout : Cmd -> result text) (app : App) (ticks : list Tick)
  : option UiResult :=
  match ticks with
  | [] => None
  | t :: ts =>
      match tick_draw t with
      | None => Some UiErr
      | Some s =>
          let app := with_list_state app s in
          match tick_input t with
          | PollFailed | ReadFailed => Some UiErr
          | i =>
              let app := handle_input run_with_timeout app i in
              if should_quit app then Some (UiOk app) else run_app run_with_timeout app ts
          end
      end
  end.

(** The key presses that end [run_app], with the action they choose. *)
Definition quit_action (code : KeyCode) : option ExitAction :=
  match code with
  | KEsc => Some Cancel
  | KEnter => Some Execute
  | KChar c =>
      if c =? 113 then Some Cancel else if c =? 112 then Some Print else None
  | _ => None
  end.

(** [args.get(1).map(|s| s.as_str()).unwrap_or("ls")] *)
Definition main_target (argv : list text) : text :=
  match nth_error argv 1 with Some s => s | None => lit "ls" end.

(** What [main] ends with. *)
Inductive Outcome :=
| LoadFailed                          (* the error of [fetch_flags] is printed *)
| MainFailed                          (* a terminal call's [?] returns the error *)
| UiFailed                            (* [run_app] failed: "Ошибка UI" is printed *)
| Launched (program : text) (args : list text)
| Printed (line : text)
| Cancelled
| StillRunning_UI.

(** [main].  [setup_ok]: [enable_raw_mode], [EnterAlternateScreen] and
    [Terminal::new] succeed; [teardown_ok]: [disable_raw_mode],
    [LeaveAlternateScreen] and [show_cursor] succeed. *)
Definition main_model (run_with_timeout : Cmd -> result text) (argv : list text)
  (setup_ok : bool) (ticks : list Tick) (teardown_ok : bool) : Outcome :=
  let target := main_target argv in
  match fetch_flags run_with_timeout target System with
  | Err _ => LoadFailed
  | Ok fs =>
      if negb setup_ok then MainFailed else
      match run_app run_with_timeout (app_new target fs) ticks with
      | None => StillRunning_UI
      | Some run_result =>
          if negb teardown_ok then MainFailed else
          match run_result with
          | UiErr => UiFailed
          | UiOk app =>
              match exit_action app with
              | Execute => Launched (target_cmd app) (get_selected_args app)
              | Print => Printed (build_preview_string app)
              | Cancel => Cancelled
              end
          end
      end
  end.

(** The state after an iteration's draw. *)
Definition after_draw (app : App) (t : Tick) : App :=
  match tick_draw t with Some s => with_list_state app s | None => app end.

(** A whole iteration that does not end the loop. *)
Definition tick_step (run_with_timeout : Cmd -> result text) (app : App) (t : Tick) : App :=
  handle_input run_with_timeout (after_draw app t) (tick_input t).

(** How an iteration ends [run_app] from a state with [should_quit] unset:
    [Some None] on an I/O error, [Some (Some a)] on a key press choosing
    exit action [a], [None] when the loop goes on. *)
Definition tick_ends (t : Tick) : option (option ExitAction) :=
  match tick_draw t with
  | None => Some None
  | Some _ =>
      match tick_input t with
      | PollFailed | ReadFailed => Some None
      | EventRead (KeyEvent code Press) => option_map Some (quit_action code)
      | _ => None
      end
  end.

(** An iteration that draws, reads no key press and does not fail. *)
Definition idle_tick (t : Tick) : bool :=
  match tick_draw t, tick_input t with
  | Some _, NoEvent => true
  | Some _, EventRead (KeyEvent _ Press) => false
  | Some _, EventRead _ => true
  | _, _ => false
  end.

Definition key_tick (s : option nat) (code : KeyCode) : Tick :=
  {| tick_draw := Some s; tick_input := EventRead (KeyEvent code Press) |}.

(** The cursor is unset or inside the list. *)
Definition cursor_ok (app : App) : Prop :=
  match list_state app with
  | None => True
  | Some i => (i < List.length (flags app))%nat
  end.

(** The shapes of the tokens the regex captures. *)
Definition short_token_ok (s : text) : Prop :=
  exists c, s = [45; c] /\ is_short_char c = true.

Definition long_token_ok (l : text) : Prop :=
  exists r, l = 45 :: 45 :: r /\ r <> [] /\ Forall (fun c => is_long_char c = true) r.

(** A child observed running at every poll, the k-th poll at 50·k ms. *)
Definition running_polls (n : nat) : list Poll :=
  map (fun k => {| poll_elapsed_ms := 50 * Z.of_nat k; poll_status := StillRunning |}) (seq 0 n).

(** ** Sample inputs *)

Definition sample_help : text :=
  lit "  -v, --verbose     Enable verbose output" ++ [NL] ++
  lit "      --dry-run     Do not execute anything".

Definition dry_run_flag : Flag :=
  {| short := None; long := Some (lit "--dry-run");
     desc := lit "Do not execute anything"; selected := false |}.

Definition sample_app : App :=
  toggle_selection (next (app_new (lit "cp")
    [ {| short := Some (lit "-v"); long := Some (lit "--verbose");
         desc := lit "Enable verbose output"; selected := false |};
      {| short := None; long := Some (lit "--dry-run");
         desc := lit "Do not execute anything"; selected := false |} ])).

Definition sample_run : Cmd -> result text := fun _ => Ok sample_help.

(** ** Properties of extraction *)

Lemma collect_flags_in caps f :
  In f (collect_flags caps) -> exists cap, In cap caps /\ flag_of_captures cap = Some f.
Proof.
  induction caps as [|cap caps IH]; simpl; [tauto|].
  destruct (flag_of_captures cap) as [g|] eqn:E.
  - intros [<-|H]; [eauto|]. destruct (IH H) as (c & ? & ?); eauto.
  - intros H. destruct (IH H) as (c & ? & ?); eauto.
Qed.

Lemma flag_of_captures_some cap f :
  flag_of_captures cap = Some f ->
  selected f = false /\ (short f <> None \/ long f <> None) /\
  desc f = trim (cap_desc cap) /\ (2 <= str_len (desc f))%nat.
Proof.
  unfold flag_of_captures.
  destruct (cap_short cap) as [s|], (cap_long cap) as [l|], (cap_long_only cap) as [lo|];
    simpl;
    repeat match goal with
           | |- context [if ?b then _ else _] => destruct b eqn:?
           end;
    try discriminate; intros H; injection H as <-; simpl;
    repeat split; try (left; discriminate); try (right; discriminate);
    apply Nat.ltb_ge; assumption.
Qed.

Lemma extract_ok t fs :
  extract t = Ok fs -> fs = collect_flags (captures_iter t) /\ fs <> [].
Proof.
  unfold extract. destruct (collect_flags (captures_iter t)) as [|g gs];
    intros H; inversion H; subst; split; congruence.
Qed.

Lemma extract_flag t fs f :
  extract t = Ok fs -> In f fs ->
  exists cap, In cap (captures_iter t) /\ flag_of_captures cap = Some f.
Proof.
  intros H Hin. apply extract_ok in H as [-> _]. now apply collect_flags_in.
Qed.

Lemma extract_unselected t fs :
  extract t = Ok fs -> Forall (fun f => selected f = false) fs.
Proof.
  intros H. apply Forall_forall. intros f Hin.
  destruct (extract_flag t fs f H Hin) as (cap & _ & E).
  apply flag_of_captures_some in E. tauto.
Qed.

Lemma fetch_flags_ok run cmd lang fs :
  fetch_flags run cmd lang = Ok fs ->
  exists t, snd (fetch_raw_help run cmd lang) = Ok t /\ extract t = Ok fs.
Proof.
  unfold fetch_flags. destruct (snd (fetch_raw_help run cmd lang)) as [t|e];
    intros H; [eauto | discriminate].
Qed.

Lemma set_selected_same f : set_selected (selected f) f = f.
Proof. destruct f; reflexivity. Qed.

Lemma text_eqb_true a b : text_eqb a b = true <-> a = b.
Proof. unfold text_eqb. destruct (list_eq_dec Z.eq_dec a b); split; congruence. Qed.

Lemma contains_spec xs x : contains xs x = true <-> In x xs.
Proof.
  unfold contains. rewrite existsb_exists. split.
  - intros (y & Hy & E). apply text_eqb_true in E. now subst.
  - intros H. exists x. split; [assumption|]. now apply text_eqb_true.
Qed.

Lemma get_selected_args_spec app a :
  In a (get_selected_args app) <->
  exists f, In f (flags app) /\ selected f = true /\ as_arg f = a.
Proof.
  unfold get_selected_args. rewrite in_map_iff. split.
  - intros (f & <- & Hf). apply filter_In in Hf. exists f. tauto.
  - intros (f & Hf & Hs & <-). exists f. split; [reflexivity|]. now apply filter_In.
Qed.

(** ** Properties of the acceptance heuristic *)

(** A two-character pattern of distinct characters cannot overlap itself,
    so the left-to-right non-overlapping count is the count of all its
    occurrences. *)
Lemma matches_count_two_distinct a b t :
  a <> b -> matches_count [a; b] t = occurrences [a; b] t.
Proof.
  intros Hab. unfold matches_count.
  remember (List.length t) as n eqn:En.
  revert t En. induction n as [n IH] using (well_founded_induction lt_wf).
  intros [|c t'] En; [reflexivity|].
  cbn [matches_count_from occurrences].
  destruct (starts_with [a; b] (c :: t')) eqn:Hs.
  - destruct t' as [|d t'']; [simpl in Hs; now rewrite andb_false_r in Hs|].
    simpl in Hs. apply andb_true_iff in Hs as [Hc Hs].
    apply andb_true_iff in Hs as [Hd _]. apply Z.eqb_eq in Hc, Hd. subst c d.
    cbn [Nat.pred List.length matches_count_from occurrences starts_with].
    rewrite (proj2 (Z.eqb_neq a b) Hab). simpl. f_equal. apply (IH (List.length t'')); simpl in En; [lia | reflexivity].
  - simpl. apply (IH (List.length t')); simpl in En; [lia | reflexivity].
Qed.

Lemma help_text_accepted_spec t :
  help_text_accepted t = true <->
  (3 <= occurrences (lit " -") t \/ 3 <= occurrences [NL; 45%Z] t)%nat.
Proof.
  unfold help_text_accepted.
  rewrite (matches_count_two_distinct 32 45), (matches_count_two_distinct NL 45)
    by (unfold NL; lia).
  rewrite orb_true_iff, !Nat.leb_le. reflexivity.
Qed.

(** ** Where the description capture comes from *)

Lemma plus_splits_spec p t r rest :
  In (r, rest) (plus_splits p t) ->
  t = r ++ rest /\ Forall (fun c => p c = true) r.
Proof.
  revert r rest. induction t as [|c t' IH]; simpl; [tauto|].
  intros r rest. destruct (p c) eqn:Hp; [|intros []].
  rewrite in_app_iff, in_map_iff. intros [((r0, rest0) & E & Hin) | [E | []]].
  - injection E as <- <-. destruct (IH _ _ Hin) as [-> Hf]. split; [reflexivity|].
    now constructor.
  - injection E as <- <-. split; [reflexivity|]. now constructor.
Qed.

Lemma desc_tail_spec t d r :
  In (d, r) (desc_tail t) ->
  exists w, t = w ++ d ++ r /\ at_line_end r = true /\ Forall (fun c => is_dot c = true) d.
Proof.
  unfold desc_tail. rewrite in_flat_map. intros ((w, r0) & Hw & Hin).
  apply in_flat_map in Hin as ((d0, r1) & Hd & Hin).
  destruct (at_line_end r1) eqn:He; [|destruct Hin].
  destruct Hin as [E | []]. injection E as <- <-.
  apply plus_splits_spec in Hw as [-> _]. apply plus_splits_spec in Hd as [-> Hf].
  exists w. auto.
Qed.

Lemma short_tok_spec t s r : In (s, r) (short_tok t) -> t = s ++ r.
Proof.
  unfold short_tok. destruct t as [|d [|c t']]; simpl; try tauto.
  destruct (_ && _); simpl; [|tauto]. intros [E|[]]. now injection E as <- <-.
Qed.

Lemma long_tok_spec t l r : In (l, r) (long_tok t) -> t = l ++ r.
Proof.
  unfold long_tok. destruct t as [|d1 [|d2 t']]; simpl; try tauto.
  destruct (_ && _); simpl; [|tauto].
  rewrite in_map_iff. intros ((l0, r0) & E & Hin). injection E as <- <-.
  apply plus_splits_spec in Hin as [-> _]. reflexivity.
Qed.

Lemma opt_comma_spec t r : In r (opt_comma t) -> exists x, t = x ++ r.
Proof.
  unfold opt_comma. destruct t as [|c t']; simpl.
  - intros [<-|[]]. now exists [].
  - destruct (c =? 44); simpl.
    + intros [<-|[<-|[]]]; [now exists [c] | now exists []].
    + intros [<-|[]]. now exists [].
Qed.

Lemma opt_long_spec t l r : In (l, r) (opt_long t) -> exists x, t = x ++ r.
Proof.
  unfold opt_long. rewrite in_app_iff, in_flat_map.
  intros [(r0 & H0 & Hin) | [E | []]].
  - apply in_flat_map in Hin as ((w, r1) & H1 & Hin).
    apply in_map_iff in Hin as ((l2, r2) & E & H2). injection E as <- <-.
    destruct (opt_comma_spec _ _ H0) as (x & ->).
    apply plus_splits_spec in H1 as [-> _]. apply long_tok_spec in H2 as ->.
    exists (x ++ w ++ l2). now rewrite !app_assoc.
  - injection E as <- <-. now exists [].
Qed.

Lemma matches_at_spec t cap rest :
  In (cap, rest) (matches_at t) ->
  exists pre, t = pre ++ cap_desc cap ++ rest /\ at_line_end rest = true /\
              Forall (fun c => is_dot c = true) (cap_desc cap).
Proof.
  unfold matches_at. rewrite in_flat_map. intros ((w, r) & Hw & Hin).
  apply plus_splits_spec in Hw as [-> _].
  apply in_app_iff in Hin as [Hin | Hin].
  - apply in_flat_map in Hin as ((s, r1) & Hs & Hin).
    apply in_flat_map in Hin as ((l, r2) & Hl & Hin).
    apply in_map_iff in Hin as ((d, r3) & E & Hd). injection E as <- <-. simpl.
    apply short_tok_spec in Hs as ->. destruct (opt_long_spec _ _ _ Hl) as (x & ->).
    destruct (desc_tail_spec _ _ _ Hd) as (v & -> & He & Hf).
    exists (w ++ s ++ x ++ v). rewrite !app_assoc. auto.
  - apply in_flat_map in Hin as ((l, r1) & Hl & Hin).
    apply in_map_iff in Hin as ((d, r2) & E & Hd). injection E as <- <-. simpl.
    apply long_tok_spec in Hl as ->.
    destruct (desc_tail_spec _ _ _ Hd) as (v & -> & He & Hf).
    exists (w ++ l ++ v). rewrite !app_assoc. auto.
Qed.

Lemma captures_from_spec k prev t cap :
  In cap (captures_from k prev t) ->
  exists pre t0 rest, t = pre ++ t0 /\ In (cap, rest) (matches_at t0).
Proof.
  revert k prev. induction t as [|c t' IH]; simpl; [tauto|].
  intros k prev Hin.
  assert (Hstep : forall k', In cap (captures_from k' (Some c) t') ->
            exists pre t0 rest, c :: t' = pre ++ t0 /\ In (cap, rest) (matches_at t0)).
  { intros k' H. destruct (IH _ _ H) as (pre & t0 & rest & -> & Hm).
    exists (c :: pre), t0, rest. auto. }
  destruct k as [|k]; [|now apply (Hstep k)].
  destruct (first_match prev (c :: t')) as [[cap0 n]|] eqn:Hf; [|now apply (Hstep 0%nat)].
  destruct Hin as [<- | Hin]; [|now apply (Hstep (Nat.pred n))].
  unfold first_match in Hf. destruct (at_line_start prev); [|discriminate].
  destruct (matches_at (c :: t')) as [|[cap1 rest1] ms] eqn:Hm; [discriminate|].
  injection Hf as <- _. exists [], (c :: t'), rest1. split; [reflexivity|].
  rewrite Hm. now left.
Qed.

(** Every description capture is a stretch of the text that contains no
    line feed and runs up to the end of a line. *)
Lemma captures_iter_desc t cap :
  In cap (captures_iter t) ->
  exists pre post, t = pre ++ cap_desc cap ++ post /\ at_line_end post = true /\
                   ~ In NL (cap_desc cap).
Proof.
  intros H. destruct (captures_from_spec _ _ _ _ H) as (pre & t0 & rest & -> & Hm).
  destruct (matches_at_spec _ _ _ Hm) as (x & -> & He & Hf).
  exists (pre ++ x), rest. rewrite !app_assoc. split; [reflexivity|]. split; [assumption|].
  intros Hin. rewrite Forall_forall in Hf. specialize (Hf NL Hin). discriminate.
Qed.

(** ** The claims *)

(** C1: [toggle_language] is atomic: when acquisition or extraction for the
    new language fails, the whole state (flags with their selection, the
    cursor, the current language) is left as it was. *)
Theorem toggle_language_failure_unchanged run app e :
  fetch_flags run (target_cmd app) (other_language (current_lang app)) = Err e ->
  toggle_language run app = app.
Proof.
  intros H. unfold toggle_language. now rewrite H.
Qed.

Lemma toggle_language_failure_unchanged_witness :
  fetch_flags (fun _ => Err Timeout) (target_cmd sample_app)
    (other_language (current_lang sample_app)) = Err NoHelpAvailable /\
  toggle_language (fun _ => Err Timeout) sample_app = sample_app.
Proof.
  split; [vm_compute; reflexivity|].
  apply (toggle_language_failure_unchanged _ _ NoHelpAvailable). vm_compute. reflexivity.
Defined.

(** C2: after a successful [toggle_language] the flag list is the newly
    extracted one, and a new flag is selected exactly when its canonical
    argument ([as_arg]) is that of a flag selected before; in particular a
    selected flag whose long form is unchanged stays selected. *)
Theorem toggle_language_projects_selection run app nf :
  fetch_flags run (target_cmd app) (other_language (current_lang app)) = Ok nf ->
  map (set_selected false) (flags (toggle_language run app)) = nf /\
  (forall f', In f' (flags (toggle_language run app)) ->
     (selected f' = true <->
      exists f, In f (flags app) /\ selected f = true /\ as_arg f = as_arg f')) /\
  (forall f f' l, In f (flags app) -> selected f = true -> long f = Some l ->
     In f' (flags (toggle_language run app)) -> long f' = Some l -> selected f' = true).
Proof.
  intros H.
  assert (Hun : Forall (fun f => selected f = false) nf).
  { destruct (fetch_flags_ok _ _ _ _ H) as (t & _ & Ht). exact (extract_unselected t nf Ht). }
  assert (Hsel : forall f', In f' (flags (toggle_language run app)) ->
     (selected f' = true <->
      exists f, In f (flags app) /\ selected f = true /\ as_arg f = as_arg f')).
  { intros f'. unfold toggle_language. rewrite H. simpl. rewrite in_map_iff.
    intros (g & <- & Hg). rewrite Forall_forall in Hun. specialize (Hun g Hg).
    rewrite <- get_selected_args_spec.
    destruct (contains (get_selected_args app) (as_arg g)) eqn:E.
    - apply contains_spec in E. simpl. tauto.
    - rewrite Hun. split; [discriminate|]. intros Hin.
      apply contains_spec in Hin. congruence. }
  split; [|split; [exact Hsel|]].
  - unfold toggle_language. rewrite H. simpl. rewrite map_map.
    rewrite <- (map_id nf) at 2. apply map_ext_in. intros g Hg.
    rewrite Forall_forall in Hun. specialize (Hun g Hg).
    destruct g as [s l d b]; simpl in Hun; subst b.
    destruct (contains _ _); reflexivity.
  - intros f f' l Hf Hs Hl Hf' Hl'. apply (proj2 (Hsel f' Hf')).
    exists f. split; [assumption|]. split; [assumption|].
    unfold as_arg. now rewrite Hl, Hl'.
Qed.

Lemma toggle_language_projects_selection_witness :
  fetch_flags sample_run (target_cmd sample_app) (other_language (current_lang sample_app))
    = extract sample_help /\
  map (set_selected false) (flags (toggle_language sample_run sample_app))
    = collect_flags (captures_iter sample_help).
Proof.
  split; [vm_compute; reflexivity|].
  apply (toggle_language_projects_selection sample_run sample_app). vm_compute. reflexivity.
Defined.

(** C5: extraction fails with [NoFlagsFound] exactly when no capture is
    accepted as a flag, and never succeeds with an empty list. *)
Theorem extract_no_flags_found t :
  (extract t = Err NoFlagsFound <-> collect_flags (captures_iter t) = []) /\
  extract t <> Ok [].
Proof.
  unfold extract. destruct (collect_flags (captures_iter t)); split; try split;
    congruence.
Qed.

(** C6: the two-line sample yields the two expected flags in order; with
    only the second selected and target [cp] the preview is [cp --dry-run];
    in general the preview is the target alone when nothing is selected,
    else the target, one space and the space-joined selected arguments. *)
Theorem sample_help_end_to_end :
  extract sample_help =
    Ok [ {| short := Some (lit "-v"); long := Some (lit "--verbose");
            desc := lit "Enable verbose output"; selected := false |};
         {| short := None; long := Some (lit "--dry-run");
            desc := lit "Do not execute anything"; selected := false |} ] /\
  (match extract sample_help with
   | Ok fs => build_preview_string (toggle_selection (next (app_new (lit "cp") fs)))
   | Err _ => []
   end) = lit "cp --dry-run" /\
  (forall app,
     build_preview_string app =
       match get_selected_args app with
       | [] => target_cmd app
       | args => target_cmd app ++ lit " " ++ join (lit " ") args
       end).
Proof.
  split; [vm_compute; reflexivity|].
  split; [vm_compute; reflexivity|].
  intros app. unfold build_preview_string. now destruct (get_selected_args app).
Qed.

(** C8: every flag returned by extraction has a short or a long form. *)
Theorem extract_flag_has_name t fs f :
  extract t = Ok fs -> In f fs -> ~ (short f = None /\ long f = None).
Proof.
  intros H Hin. destruct (extract_flag t fs f H Hin) as (cap & _ & E).
  apply flag_of_captures_some in E. tauto.
Qed.

Lemma extract_flag_has_name_witness :
  extract sample_help = Ok (collect_flags (captures_iter sample_help)) /\
  In dry_run_flag (collect_flags (captures_iter sample_help)) /\
  ~ (short dry_run_flag = None /\ long dry_run_flag = None).
Proof.
  split; [vm_compute; reflexivity|]. split; [vm_compute; right; left; reflexivity|].
  apply (extract_flag_has_name sample_help (collect_flags (captures_iter sample_help))).
  - vm_compute. reflexivity.
  - vm_compute. right. left. reflexivity.
Defined.

(** C9: on a non-empty list [next] and [previous] move the cursor
    circularly (from the last index [next] goes to 0, from 0 [previous]
    goes to the last index) and change nothing else; on an empty list both
    leave the state unchanged. *)
Theorem next_previous_wrap app :
  (flags app = [] -> next app = app /\ previous app = app) /\
  (forall i, list_state app = Some i -> (i < List.length (flags app))%nat ->
     next app = with_list_state app
       (Some (if Nat.eqb i (List.length (flags app) - 1) then 0%nat else S i)) /\
     previous app = with_list_state app
       (Some (if Nat.eqb i 0 then (List.length (flags app) - 1)%nat else (i - 1)%nat))).
Proof.
  unfold next, previous. split.
  - intros ->. split; reflexivity.
  - intros i Hi Hlt. rewrite Hi.
    destruct (flags app) as [|f fs] eqn:E; [simpl in Hlt; lia|].
    split; f_equal; f_equal.
    destruct (Nat.leb_spec (List.length (f :: fs) - 1) i) as [H|H];
      destruct (Nat.eqb_spec i (List.length (f :: fs) - 1)); lia.
Qed.

Lemma next_previous_wrap_witness :
  list_state sample_app = Some 1%nat /\
  next sample_app = with_list_state sample_app (Some 0%nat) /\
  previous sample_app = with_list_state sample_app (Some 0%nat).
Proof.
  split; [vm_compute; reflexivity|].
  exact (proj2 (next_previous_wrap sample_app) 1%nat
           ltac:(vm_compute; reflexivity) ltac:(vm_compute; lia)).
Defined.

(** C10: the dash-count heuristic only filters the [--help] output: when
    that phase fails or is rejected and [man] succeeds within its budget,
    its output is returned whatever it contains. *)
Theorem man_fallback_unfiltered run cmd lang t :
  match run (help_cmd cmd lang) with
  | Ok h => help_text_accepted h = false
  | Err _ => True
  end ->
  run (man_cmd cmd lang) = Ok t ->
  fetch_raw_help run cmd lang = ([help_cmd cmd lang; man_cmd cmd lang], Ok t).
Proof.
  intros Hh Hm. unfold fetch_raw_help. rewrite Hm.
  destruct (run (help_cmd cmd lang)) as [h|e]; [rewrite Hh|]; reflexivity.
Qed.

Lemma man_fallback_unfiltered_witness :
  timeout_secs (man_cmd (lit "cp") System) = 2 /\
  matches_count (lit " -") [] = 0%nat /\ matches_count [NL; 45] [] = 0%nat /\
  fetch_raw_help (fun _ => Ok []) (lit "cp") System
    = ([help_cmd (lit "cp") System; man_cmd (lit "cp") System], Ok []).
Proof.
  split; [reflexivity|]. split; [reflexivity|]. split; [reflexivity|].
  apply man_fallback_unfiltered; vm_compute; reflexivity.
Defined.

(** C3: a text obtained from [<command> --help] is returned, without the
    [man] fallback being run, exactly when it contains at least 3
    occurrences of [" -"] or at least 3 occurrences of ["\n-"]. *)
Theorem help_phase_acceptance run cmd lang t :
  run (help_cmd cmd lang) = Ok t ->
  (fetch_raw_help run cmd lang = ([help_cmd cmd lang], Ok t) <->
   (3 <= occurrences (lit " -") t \/ 3 <= occurrences [NL; 45%Z] t)%nat).
Proof.
  intros H. rewrite <- help_text_accepted_spec.
  unfold fetch_raw_help. rewrite H.
  destruct (help_text_accepted t); split; try reflexivity; discriminate.
Qed.

Lemma help_phase_acceptance_witness :
  (occurrences (lit " -") (lit "a -b -c -d") = 3%nat /\
   fetch_raw_help (fun _ => Ok (lit "a -b -c -d")) (lit "cp") English
     = ([help_cmd (lit "cp") English], Ok (lit "a -b -c -d"))) /\
  (occurrences (lit " -") (lit "a -b -c") = 2%nat /\
   fetch_raw_help (fun _ => Ok (lit "a -b -c")) (lit "cp") English
     <> ([help_cmd (lit "cp") English], Ok (lit "a -b -c"))).
Proof.
  split; split.
  - vm_compute. reflexivity.
  - apply (help_phase_acceptance (fun _ => Ok (lit "a -b -c -d")) (lit "cp") English);
      [reflexivity | vm_compute; left; lia].
  - vm_compute. reflexivity.
  - intros E.
    apply (help_phase_acceptance (fun _ => Ok (lit "a -b -c")) (lit "cp") English) in E;
      [|reflexivity].
    vm_compute in E. lia.
Defined.

(** C4: the flag-line grammar is meant line by line, but [\s] also matches
    a line feed, so a match can span lines: an option alone on its line
    takes the next line as its description, and a line without leading
    whitespace yields a flag when a blank line precedes it. *)
Theorem flag_regex_spans_lines :
  extract (lit "  --foo" ++ [NL] ++ lit "      bar baz") =
    Ok [ {| short := None; long := Some (lit "--foo");
            desc := lit "bar baz"; selected := false |} ] /\
  extract ([NL] ++ lit "-v  verbose") =
    Ok [ {| short := Some (lit "-v"); long := None;
            desc := lit "verbose"; selected := false |} ].
Proof.
  split; vm_compute; reflexivity.
Qed.




(** ** Further properties of the selection model *)

Lemma update_nth_length {A} i (g : A -> A) l : List.length (update_nth i g l) = List.length l.
Proof. revert i; induction l as [|x l IH]; intros [|i]; simpl; auto. Qed.

Lemma update_nth_nth_error {A} i j (g : A -> A) l :
  nth_error (update_nth i g l) j =
  if Nat.eqb i j then option_map g (nth_error l j) else nth_error l j.
Proof.
  revert i j; induction l as [|x l IH]; intros [|i] [|j]; simpl; auto.
  destruct (Nat.eqb i j); reflexivity.
Qed.

Lemma update_nth_twice {A} i (g : A -> A) l :
  (forall x, g (g x) = x) -> update_nth i g (update_nth i g l) = l.
Proof.
  intros Hg. revert i; induction l as [|x l IH]; intros [|i]; simpl; f_equal; auto.
Qed.

Lemma with_list_state_same app : with_list_state app (list_state app) = app.
Proof. destruct app; reflexivity. Qed.

Lemma with_list_state_twice app s s' :
  with_list_state (with_list_state app s) s' = with_list_state app s'.
Proof. reflexivity. Qed.

(** X1: the cursor is always unset or inside the flag list: [App::new]
    establishes it, and moving, toggling and switching language keep it. *)
Theorem cursor_ok_preserved :
  (forall target fs, cursor_ok (app_new target fs)) /\
  (forall run app, cursor_ok app ->
     cursor_ok (next app) /\ cursor_ok (previous app) /\
     cursor_ok (toggle_selection app) /\ cursor_ok (toggle_language run app)).
Proof.
  split.
  - intros target [|f fs]; unfold cursor_ok; simpl; [exact I | lia].
  - intros run app Hok. unfold cursor_ok in *. repeat split.
    + unfold next. destruct (flags app) as [|f fs] eqn:E; [rewrite E; exact Hok|].
      simpl. rewrite E. destruct (list_state app) as [i|]; simpl; [|lia].
      match goal with |- context [Nat.leb ?a ?b] => destruct (Nat.leb_spec a b) end;
      simpl in *; lia.
    + unfold previous. destruct (flags app) as [|f fs] eqn:E; [rewrite E; exact Hok|].
      simpl. rewrite E. destruct (list_state app) as [i|]; simpl; [|lia].
      destruct (Nat.eqb_spec i 0); simpl in *; lia.
    + unfold toggle_selection. destruct (list_state app) as [i|] eqn:Ei; [|rewrite Ei; exact I].
      destruct (Nat.ltb i (List.length (flags app))); [|rewrite Ei; exact Hok].
      simpl. rewrite Ei, update_nth_length. exact Hok.
    + unfold toggle_language.
      destruct (fetch_flags run (target_cmd app) (other_language (current_lang app)))
        as [nf|e] eqn:Ef; [|exact Hok].
      simpl. destruct (list_state app) as [i|]; [|exact I].
      destruct (fetch_flags_ok _ _ _ _ Ef) as (t & _ & Ht).
      destruct (extract_ok _ _ Ht) as [_ Hne].
      destruct (Nat.leb_spec (List.length (map (fun f => if contains (get_selected_args app) (as_arg f)
                                  then set_selected true f else f) nf)) i);
        rewrite length_map in *; simpl;
        [destruct nf; [congruence | simpl; lia] | lia].
Qed.

Lemma cursor_ok_preserved_witness :
  cursor_ok (toggle_language sample_run (next sample_app)).
Proof.
  apply (proj2 cursor_ok_preserved). vm_compute. lia.
Defined.

Lemma next_previous_step app i :
  list_state app = Some i -> (i < List.length (flags app))%nat ->
  next app = with_list_state app
    (Some (if Nat.eqb i (List.length (flags app) - 1) then 0%nat else S i)) /\
  previous app = with_list_state app
    (Some (if Nat.eqb i 0 then (List.length (flags app) - 1)%nat else (i - 1)%nat)).
Proof.
  unfold next, previous. intros Hi Hlt. rewrite Hi.
  destruct (flags app) as [|f fs] eqn:E; [simpl in Hlt; lia|].
  split; f_equal; f_equal.
  destruct (Nat.leb_spec (List.length (f :: fs) - 1) i) as [H|H];
    destruct (Nat.eqb_spec i (List.length (f :: fs) - 1)); lia.
Qed.

(** X2: with the cursor inside the list, [previous] undoes [next] and
    [next] undoes [previous]. *)
Theorem previous_next_inverse app i :
  list_state app = Some i -> (i < List.length (flags app))%nat ->
  previous (next app) = app /\ next (previous app) = app.
Proof.
  intros Hi Hlt.
  destruct (next_previous_step app i Hi Hlt) as [Hn Hp].
  rewrite Hn, Hp. unfold next, previous. simpl.
  destruct (flags app) as [|f fs] eqn:E; [simpl in Hlt; lia|].
  rewrite !with_list_state_twice.
  assert (Hback : with_list_state app (Some i) = app)
    by (rewrite <- Hi; apply with_list_state_same).
  simpl length in *.
  split; rewrite <- Hback at 2; f_equal; f_equal;
    [destruct (Nat.eqb_spec i (List.length (f :: fs) - 1))
    |destruct (Nat.eqb_spec i 0)];
    repeat match goal with
           | |- context [Nat.leb ?a ?b] => destruct (Nat.leb_spec a b)
           | |- context [Nat.eqb ?a ?b] => destruct (Nat.eqb_spec a b)
           end; lia.
Qed.

Lemma previous_next_inverse_witness :
  previous (next sample_app) = sample_app /\ next (previous sample_app) = sample_app.
Proof.
  apply (previous_next_inverse sample_app 1%nat); vm_compute; [reflexivity | lia].
Defined.

(** X3: toggling twice restores the state. *)
Theorem toggle_selection_involutive app :
  toggle_selection (toggle_selection app) = app.
Proof.
  unfold toggle_selection at 2.
  destruct (list_state app) as [i|] eqn:Ei; [|unfold toggle_selection; now rewrite Ei].
  destruct (Nat.ltb_spec i (List.length (flags app))) as [Hlt|Hge];
    [|unfold toggle_selection; rewrite Ei; destruct (Nat.ltb_spec i (List.length (flags app)));
      [lia | reflexivity]].
  unfold toggle_selection. simpl. rewrite Ei, update_nth_length.
  destruct (Nat.ltb_spec i (List.length (flags app))); [|lia].
  unfold with_flags. simpl. rewrite update_nth_twice.
  - destruct app; reflexivity.
  - intros [s l d b]. simpl. now rewrite negb_involutive.
Qed.

(** X4: toggling flips the selection of the flag under the cursor and
    leaves every other flag, and the rest of the state, unchanged. *)
Theorem toggle_selection_flips_current app i :
  list_state app = Some i -> (i < List.length (flags app))%nat ->
  List.length (flags (toggle_selection app)) = List.length (flags app) /\
  (forall j, nth_error (flags (toggle_selection app)) j =
     if Nat.eqb i j
     then option_map (fun f => set_selected (negb (selected f)) f) (nth_error (flags app) j)
     else nth_error (flags app) j) /\
  with_flags (toggle_selection app) (flags app) = app.
Proof.
  intros Hi Hlt. unfold toggle_selection. rewrite Hi.
  destruct (Nat.ltb_spec i (List.length (flags app))); [|lia]. simpl.
  split; [apply update_nth_length|]. split; [intros j; apply update_nth_nth_error|].
  destruct app; reflexivity.
Qed.

Lemma toggle_selection_flips_current_witness :
  nth_error (flags (toggle_selection sample_app)) 1 = Some dry_run_flag.
Proof.
  destruct (toggle_selection_flips_current sample_app 1%nat
              ltac:(vm_compute; reflexivity) ltac:(vm_compute; lia)) as (_ & H & _).
  rewrite H. vm_compute. reflexivity.
Defined.

Lemma flags_with_list_state app s : flags (with_list_state app s) = flags app.
Proof. reflexivity. Qed.

Lemma next_in_range app i :
  list_state app = Some i -> (i < List.length (flags app))%nat ->
  next app = with_list_state app (Some (S i mod List.length (flags app))%nat).
Proof.
  intros Hs Hi. unfold next. rewrite Hs.
  destruct (flags app) as [|f fs] eqn:E; [simpl in Hi; lia|].
  rewrite <- E in Hi |- *. do 2 f_equal.
  destruct (Nat.leb_spec (List.length (flags app) - 1) i).
  - replace (S i) with (List.length (flags app)) by lia. symmetry. apply Nat.Div0.mod_same.
  - symmetry. apply Nat.mod_small. lia.
Qed.

Lemma previous_in_range app i :
  list_state app = Some i -> (i < List.length (flags app))%nat ->
  previous app = with_list_state app (Some ((i + (List.length (flags app) - 1)) mod List.length (flags app))%nat).
Proof.
  intros Hs Hi. unfold previous. rewrite Hs.
  destruct (flags app) as [|f fs] eqn:E; [simpl in Hi; lia|].
  rewrite <- E in Hi |- *. do 2 f_equal.
  destruct (Nat.eqb_spec i 0) as [->|Hi0].
  - symmetry. apply Nat.mod_small. lia.
  - replace (i + (List.length (flags app) - 1))%nat
      with ((i - 1) + 1 * List.length (flags app))%nat by lia.
    rewrite Nat.Div0.mod_add by lia. symmetry. apply Nat.mod_small. lia.
Qed.

Lemma iter_next app i k :
  list_state app = Some i -> (i < List.length (flags app))%nat ->
  Nat.iter k next app = with_list_state app (Some ((i + k) mod List.length (flags app))%nat).
Proof.
  intros Hs Hi. induction k as [|k IH].
  - simpl. rewrite Nat.add_0_r, Nat.mod_small by exact Hi. rewrite <- Hs.
    symmetry. apply with_list_state_same.
  - rewrite Nat.iter_succ, IH.
    rewrite (next_in_range _ ((i + k) mod List.length (flags app))%nat); rewrite ?flags_with_list_state;
      [| reflexivity | apply Nat.mod_upper_bound; lia].
    rewrite with_list_state_twice. do 2 f_equal.
    rewrite <- Nat.add_1_r, Nat.Div0.add_mod_idemp_l. f_equal. lia.
Qed.

Lemma iter_previous app i k :
  list_state app = Some i -> (i < List.length (flags app))%nat ->
  Nat.iter k previous app =
    with_list_state app (Some ((i + k * (List.length (flags app) - 1)) mod List.length (flags app))%nat).
Proof.
  intros Hs Hi. induction k as [|k IH].
  - simpl. rewrite Nat.add_0_r, Nat.mod_small by exact Hi. rewrite <- Hs.
    symmetry. apply with_list_state_same.
  - rewrite Nat.iter_succ, IH.
    rewrite (previous_in_range _ ((i + k * (List.length (flags app) - 1)) mod List.length (flags app))%nat);
      rewrite ?flags_with_list_state; [| reflexivity | apply Nat.mod_upper_bound; lia].
    rewrite with_list_state_twice. do 2 f_equal.
    rewrite Nat.Div0.add_mod_idemp_l. f_equal. lia.
Qed.

(** X5: from any cursor position inside the list, moving down once per
    flag, or up once per flag, brings the application back to the very same
    state: [next] and [previous] walk the list as a cycle. *)
Theorem cursor_full_cycle app i :
  list_state app = Some i -> (i < List.length (flags app))%nat ->
  Nat.iter (List.length (flags app)) next app = app /\
  Nat.iter (List.length (flags app)) previous app = app.
Proof.
  intros Hs Hi. split.
  - rewrite (iter_next app i _ Hs Hi).
    replace (i + List.length (flags app))%nat with (i + 1 * List.length (flags app))%nat by lia.
    rewrite Nat.Div0.mod_add, Nat.mod_small by lia. rewrite <- Hs. apply with_list_state_same.
  - rewrite (iter_previous app i _ Hs Hi).
    rewrite Nat.mul_comm, Nat.Div0.mod_add, Nat.mod_small by lia. rewrite <- Hs.
    apply with_list_state_same.
Qed.

Lemma cursor_full_cycle_witness :
  Nat.iter 2 previous sample_app = sample_app.
Proof.
  exact (proj2 (cursor_full_cycle sample_app 1 ltac:(vm_compute; reflexivity)
                  ltac:(vm_compute; lia))).
Defined.

(** ** Further properties of extraction *)

Lemma plus_splits_nonempty p t r rest : In (r, rest) (plus_splits p t) -> r <> [].
Proof.
  destruct t as [|c t']; simpl; [tauto|]. destruct (p c); [|intros []].
  rewrite in_app_iff, in_map_iff. intros [((r0, rest0) & E & _) | [E | []]];
    injection E as <- _; discriminate.
Qed.

Lemma short_tok_shape t s r : In (s, r) (short_tok t) -> short_token_ok s.
Proof.
  unfold short_tok. destruct t as [|d [|c t']]; simpl; try tauto.
  destruct (d =? 45) eqn:Hd, (is_short_char c) eqn:Hc; simpl; try tauto.
  intros [E|[]]. injection E as <- _. apply Z.eqb_eq in Hd. subst d. now exists c.
Qed.

Lemma long_tok_shape t l r : In (l, r) (long_tok t) -> long_token_ok l.
Proof.
  unfold long_tok. destruct t as [|d1 [|d2 t']]; simpl; try tauto.
  destruct (d1 =? 45) eqn:H1, (d2 =? 45) eqn:H2; simpl; try tauto.
  apply Z.eqb_eq in H1, H2. subst d1 d2.
  rewrite in_map_iff. intros ((l0, r0) & E & Hin). injection E as <- _.
  exists l0. split; [reflexivity|]. split; [exact (plus_splits_nonempty _ _ _ _ Hin)|].
  exact (proj2 (plus_splits_spec _ _ _ _ Hin)).
Qed.

Lemma opt_long_shape t l r : In (Some l, r) (opt_long t) -> long_token_ok l.
Proof.
  unfold opt_long. rewrite in_app_iff, in_flat_map.
  intros [(r0 & _ & Hin) | [E | []]]; [|discriminate].
  apply in_flat_map in Hin as ((w, r1) & _ & Hin).
  apply in_map_iff in Hin as ((l2, r2) & E & H2). injection E as <- _.
  exact (long_tok_shape _ _ _ H2).
Qed.

(** Every match has a short token with an optional long one, or a long
    token alone, of the shapes of the regex, and a dash in its text. *)
Lemma matches_at_shape t cap rest :
  In (cap, rest) (matches_at t) ->
  ((exists s, cap_short cap = Some s /\ short_token_ok s /\ cap_long_only cap = None /\
              (forall l, cap_long cap = Some l -> long_token_ok l)) \/
   (exists l, cap_short cap = None /\ cap_long cap = None /\ cap_long_only cap = Some l /\
              long_token_ok l)) /\
  In 45 t.
Proof.
  unfold matches_at. rewrite in_flat_map. intros ((w, r) & Hw & Hin).
  apply plus_splits_spec in Hw as [-> _].
  apply in_app_iff in Hin as [Hin | Hin].
  - apply in_flat_map in Hin as ((s, r1) & Hs & Hin).
    apply in_flat_map in Hin as ((l, r2) & Hl & Hin).
    apply in_map_iff in Hin as ((d, r3) & E & _). injection E as <- _. simpl.
    destruct (short_tok_shape _ _ _ Hs) as (c & -> & Hc).
    split.
    + left. exists [45; c]. split; [reflexivity|]. split; [now exists c|].
      split; [reflexivity|]. intros l' ->. exact (opt_long_shape _ _ _ Hl).
    + apply short_tok_spec in Hs. rewrite Hs. apply in_or_app. right. now left.
  - apply in_flat_map in Hin as ((l, r1) & Hl & Hin).
    apply in_map_iff in Hin as ((d, r2) & E & _). injection E as <- _. simpl.
    pose proof (long_tok_shape _ _ _ Hl) as Hsh.
    split; [right; exists l; auto|].
    apply long_tok_spec in Hl. destruct Hsh as (r0 & -> & _).
    rewrite Hl. apply in_or_app. right. now left.
Qed.

Lemma captures_iter_shape t cap :
  In cap (captures_iter t) ->
  ((exists s, cap_short cap = Some s /\ short_token_ok s /\ cap_long_only cap = None /\
              (forall l, cap_long cap = Some l -> long_token_ok l)) \/
   (exists l, cap_short cap = None /\ cap_long cap = None /\ cap_long_only cap = Some l /\
              long_token_ok l)) /\
  In 45 t.
Proof.
  intros H. destruct (captures_from_spec _ _ _ _ H) as (pre & t0 & rest & -> & Hm).
  destruct (matches_at_shape _ _ _ Hm) as [Hs Hd]. split; [exact Hs|].
  apply in_or_app. now right.
Qed.

(** X6: the prefix checks of [fetch_flags] never reject a match of the
    regex: a capture is dropped exactly when its trimmed description is
    shorter than 2 bytes. *)
Theorem capture_dropped_iff_short_description t cap :
  In cap (captures_iter t) ->
  (flag_of_captures cap = None <-> (str_len (trim (cap_desc cap)) < 2)%nat).
Proof.
  intros H. destruct (captures_iter_shape t cap H) as [Hs _].
  unfold flag_of_captures.
  destruct Hs as [(s & Es & (c & -> & _) & Elo & Hl) | (l & Es & El & Elo & (r & -> & _))].
  - rewrite Es, Elo. simpl.
    destruct (cap_long cap) as [l|] eqn:El.
    + destruct (Hl l eq_refl) as (r & -> & _). simpl.
      destruct (Nat.ltb_spec (str_len (trim (cap_desc cap))) 2); split; congruence || lia.
    + simpl. destruct (Nat.ltb_spec (str_len (trim (cap_desc cap))) 2); split; congruence || lia.
  - rewrite Es, El, Elo. simpl.
    destruct (Nat.ltb_spec (str_len (trim (cap_desc cap))) 2); split; congruence || lia.
Qed.

Lemma capture_dropped_iff_short_description_witness :
  flag_of_captures (hd {| cap_short := None; cap_long := None; cap_long_only := None;
                          cap_desc := [] |} (captures_iter (lit "  -v  x"))) = None.
Proof.
  apply (capture_dropped_iff_short_description (lit "  -v  x")).
  - vm_compute. left. reflexivity.
  - vm_compute. lia.
Defined.

(** X7: every extracted flag's short form is a dash and one character of
    [[a-zA-Z0-9?]], its long form two dashes and a non-empty run of
    [[a-zA-Z0-9-_]], and a flag with a long form but no short form came
    from the long-only alternative. *)
Theorem extracted_flag_tokens t fs f :
  extract t = Ok fs -> In f fs ->
  (forall s, short f = Some s -> short_token_ok s) /\
  (forall l, long f = Some l -> long_token_ok l).
Proof.
  intros H Hin. destruct (extract_flag t fs f H Hin) as (cap & Hc & E).
  destruct (captures_iter_shape t cap Hc) as [Hs _].
  unfold flag_of_captures in E.
  destruct Hs as [(s & Es & Hs & Elo & Hl) | (l & Es & El & Elo & Hl)].
  - rewrite Es, Elo in E. destruct (cap_long cap) as [l|] eqn:El; simpl in E;
      repeat match type of E with
             | context [if ?b then _ else _] => destruct b
             end; try discriminate; injection E as <-; simpl;
      split; intros x Ex; try discriminate; injection Ex as <-; auto.
  - rewrite Es, El, Elo in E. simpl in E;
      repeat match type of E with
             | context [if ?b then _ else _] => destruct b
             end; try discriminate; injection E as <-; simpl;
      split; intros x Ex; try discriminate; injection Ex as <-; auto.
Qed.

Lemma extracted_flag_tokens_witness :
  long_token_ok (lit "--dry-run").
Proof.
  apply (proj2 (extracted_flag_tokens sample_help (collect_flags (captures_iter sample_help))
                  dry_run_flag ltac:(vm_compute; reflexivity)
                  ltac:(vm_compute; right; left; reflexivity))).
  reflexivity.
Defined.

(** X8: a text without any dash yields no flag: extraction fails with
    [NoFlagsFound]. *)
Theorem extract_without_dash t :
  ~ In 45 t -> extract t = Err NoFlagsFound.
Proof.
  intros Hn. unfold extract.
  destruct (captures_iter t) as [|cap caps] eqn:E; [reflexivity|].
  exfalso. apply Hn. apply (captures_iter_shape t cap). rewrite E. now left.
Qed.

Lemma extract_without_dash_witness :
  extract (lit "  usage  cp SOURCE DEST") = Err NoFlagsFound.
Proof.
  apply extract_without_dash. vm_compute. intros H.
  repeat (destruct H as [H|H]; [discriminate|]). exact H.
Defined.

(** X9: acquisition errors never escape as such: [fetch_raw_help] fails
    only with [NoHelpAvailable], after both [--help] and [man] were run and
    [man] failed; [fetch_flags] fails only with [NoHelpAvailable] or
    [NoFlagsFound]. *)
Theorem acquisition_errors run cmd lang e :
  (snd (fetch_raw_help run cmd lang) = Err e ->
     e = NoHelpAvailable /\ fst (fetch_raw_help run cmd lang) = [help_cmd cmd lang; man_cmd cmd lang] /\
     exists e', run (man_cmd cmd lang) = Err e') /\
  (fetch_flags run cmd lang = Err e -> e = NoHelpAvailable \/ e = NoFlagsFound).
Proof.
  assert (Hraw : snd (fetch_raw_help run cmd lang) = Err e ->
     e = NoHelpAvailable /\ fst (fetch_raw_help run cmd lang) = [help_cmd cmd lang; man_cmd cmd lang] /\
     exists e', run (man_cmd cmd lang) = Err e').
  { unfold fetch_raw_help.
    destruct (run (man_cmd cmd lang)) as [m|em] eqn:Em;
    destruct (run (help_cmd cmd lang)) as [h|eh];
    try destruct (help_text_accepted h); simpl; intros H; try discriminate;
    injection H as <-; eauto. }
  split; [exact Hraw|].
  unfold fetch_flags. destruct (snd (fetch_raw_help run cmd lang)) as [t|e0] eqn:E.
  - unfold extract. destruct (collect_flags (captures_iter t)); intros H;
      [injection H as <-; now right | discriminate].
  - intros H. injection H as <-. left. exact (proj1 (Hraw eq_refl)).
Qed.

Lemma acquisition_errors_witness :
  fetch_flags (fun _ => Err Timeout) (lit "sl") System = Err NoHelpAvailable /\
  (NoHelpAvailable = NoHelpAvailable \/ NoHelpAvailable = NoFlagsFound).
Proof.
  split; [vm_compute; reflexivity|].
  apply (proj2 (acquisition_errors (fun _ => Err Timeout) (lit "sl") System NoHelpAvailable)).
  vm_compute. reflexivity.
Defined.

Lemma trim_start_suffix t : exists p, t = p ++ trim_start t.
Proof.
  induction t as [|c t IH]; simpl; [now exists []|].
  destruct (is_whitespace c); [|now exists []].
  destruct IH as (p & Hp). exists (c :: p). simpl. now f_equal.
Qed.

Lemma trim_start_head t c r : trim_start t = c :: r -> is_whitespace c = false.
Proof.
  induction t as [|d t IH]; simpl; [discriminate|].
  destruct (is_whitespace d) eqn:Ed; [exact IH|]. now intros [= <- _].
Qed.

Lemma last_rev_head (l : text) d : last (rev l) d = hd d l.
Proof. destruct l as [|a l]; [reflexivity|]. simpl. apply last_last. Qed.

Lemma hd_rev_last (l : text) d : hd d (rev l) = last l d.
Proof. rewrite <- (rev_involutive l) at 2. symmetry. apply last_rev_head. Qed.

Lemma last_app_cons (p : text) c r d : last (p ++ c :: r) d = last (c :: r) d.
Proof.
  induction p as [|a p IH]; [reflexivity|].
  rewrite <- app_comm_cons. simpl. rewrite IH. now destruct (p ++ c :: r) eqn:E;
    [destruct p; discriminate|].
Qed.

(** [str::trim] leaves no whitespace at either end. *)
Lemma trim_ends t :
  trim t = [] \/
  (is_whitespace (hd 0 (trim t)) = false /\ is_whitespace (last (trim t) 0) = false).
Proof.
  unfold trim. set (y := trim_start t).
  destruct (trim_start (rev y)) as [|c r] eqn:E; [now left|]. right.
  destruct (trim_start_suffix (rev y)) as (p & Hp). rewrite E in Hp.
  split.
  - rewrite hd_rev_last, <- (last_app_cons p), <- Hp, last_rev_head.
    destruct y as [|b y'] eqn:Ey; [destruct p; discriminate|].
    exact (trim_start_head t b y' Ey).
  - rewrite last_rev_head. exact (trim_start_head _ _ _ E).
Qed.

Lemma trim_start_sublist t c : In c (trim_start t) -> In c t.
Proof.
  destruct (trim_start_suffix t) as (p & Hp). intros H. rewrite Hp. apply in_or_app. now right.
Qed.

Lemma trim_sublist t c : In c (trim t) -> In c t.
Proof.
  unfold trim. intros H. apply in_rev in H. apply trim_start_sublist in H.
  apply in_rev in H. now apply trim_start_sublist in H.
Qed.

(** X10: an extracted flag's description is non-empty, has no whitespace
    at either end and holds no line feed. *)
Theorem extracted_description_trimmed t fs f :
  extract t = Ok fs -> In f fs ->
  desc f <> [] /\ is_whitespace (hd 0 (desc f)) = false /\
  is_whitespace (last (desc f) 0) = false /\ ~ In NL (desc f).
Proof.
  intros H Hin. destruct (extract_flag t fs f H Hin) as (cap & Hc & E).
  apply flag_of_captures_some in E as (_ & _ & Hd & Hl).
  destruct (captures_iter_desc t cap Hc) as (_ & _ & _ & _ & Hnl).
  assert (Hne : desc f <> []) by (intros E; rewrite E in Hl; simpl in Hl; lia).
  rewrite Hd in *. split; [exact Hne|].
  destruct (trim_ends (cap_desc cap)) as [E | [H1 H2]]; [contradiction|].
  split; [exact H1|]. split; [exact H2|].
  intros Hn. apply Hnl. now apply trim_sublist.
Qed.

Lemma extracted_description_trimmed_witness :
  is_whitespace (last (desc dry_run_flag) 0) = false.
Proof.
  apply (extracted_description_trimmed sample_help (collect_flags (captures_iter sample_help))
           dry_run_flag ltac:(vm_compute; reflexivity)
           ltac:(vm_compute; right; left; reflexivity)).
Defined.

Lemma build_preview_join app :
  build_preview_string app = join (lit " ") (target_cmd app :: get_selected_args app).
Proof.
  unfold build_preview_string. destruct (get_selected_args app); reflexivity.
Qed.

Lemma toggle_language_selected_iff run app nf :
  fetch_flags run (target_cmd app) (other_language (current_lang app)) = Ok nf ->
  forall f', In f' (flags (toggle_language run app)) ->
    (selected f' = true <->
     exists f, In f (flags app) /\ selected f = true /\ as_arg f = as_arg f').
Proof.
  intros H.
  assert (Hun : Forall (fun f => selected f = false) nf).
  { destruct (fetch_flags_ok _ _ _ _ H) as (t & _ & Ht). exact (extract_unselected t nf Ht). }
  intros f'. unfold toggle_language. rewrite H. simpl. rewrite in_map_iff.
  intros (g & <- & Hg). rewrite Forall_forall in Hun. specialize (Hun g Hg).
  rewrite <- get_selected_args_spec.
  destruct (contains (get_selected_args app) (as_arg g)) eqn:E.
  - apply contains_spec in E. simpl. tauto.
  - rewrite Hun. split; [discriminate|]. intros Hin.
    apply contains_spec in Hin. congruence.
Qed.

(** X12: a successful language switch flips the language, keeps the
    target command, installs a non-empty flag list, keeps the cursor when it
    is still inside the list and puts it on the first flag otherwise, and
    selects no argument that was not selected before. *)
Theorem toggle_language_success run app nf :
  fetch_flags run (target_cmd app) (other_language (current_lang app)) = Ok nf ->
  let app' := toggle_language run app in
  current_lang app' = other_language (current_lang app) /\
  target_cmd app' = target_cmd app /\
  flags app' <> [] /\
  list_state app' = match list_state app with
                    | Some i => if Nat.ltb i (List.length nf) then Some i else Some 0%nat
                    | None => None
                    end /\
  incl (get_selected_args app') (get_selected_args app).
Proof.
  intros H app'.
  destruct (fetch_flags_ok _ _ _ _ H) as (t & _ & Ht).
  destruct (extract_ok _ _ Ht) as [_ Hne].
  pose proof (toggle_language_selected_iff run app nf H) as Hsel.
  subst app'. unfold toggle_language at 1 2 3 4. rewrite H. simpl.
  split; [reflexivity|]. split; [reflexivity|]. split.
  { destruct nf; [congruence | discriminate]. }
  split.
  - rewrite length_map. destruct (list_state app) as [i|]; [|reflexivity].
    destruct (Nat.leb_spec (List.length nf) i), (Nat.ltb_spec i (List.length nf));
      reflexivity || lia.
  - intros a Ha. apply get_selected_args_spec in Ha as (f' & Hf' & Hs & <-).
    apply get_selected_args_spec. apply (proj1 (Hsel f' Hf') Hs).
Qed.

Lemma toggle_language_success_witness :
  current_lang (toggle_language sample_run sample_app) = English.
Proof.
  apply (toggle_language_success sample_run sample_app
           (collect_flags (captures_iter sample_help))).
  vm_compute. reflexivity.
Defined.

(** X13: when the flag tokens fit in 25 characters, a rendered flag is its
    checkbox ("[x] " when selected, "[ ] " otherwise), its tokens, spaces
    up to 25 characters, then " | " and the description, so the
    descriptions of a list line up; and a long form starts 4 characters
    into the tokens whether the flag has a two-character short form or none,
    so long forms line up too. *)
Theorem display_string_layout f :
  (List.length (flags_str f) <= 25)%nat ->
  (exists pad, to_display_string f =
     (if selected f then lit "[x] " else lit "[ ] ") ++ flags_str f ++ pad ++ lit " | " ++ desc f /\
     Forall (fun c => c = 32) pad /\
     List.length (flags_str f ++ pad) = 25%nat) /\
  (forall l, long f = Some l ->
     match short f with Some s => List.length s = 2%nat | None => True end ->
     exists pre, flags_str f = pre ++ l /\ List.length pre = 4%nat).
Proof.
  intros H. split.
  - exists (repeat 32 (25 - List.length (flags_str f))).
    split; [|split].
    + unfold to_display_string, pad_right.
      destruct (selected f); rewrite <- !app_assoc; reflexivity.
    + apply Forall_forall. intros c Hc. now apply repeat_spec in Hc.
    + rewrite length_app, repeat_length. lia.
  - intros l Hl Hs. unfold flags_str. rewrite Hl.
    destruct (short f) as [s|].
    + exists (s ++ lit ", "). rewrite <- app_assoc, length_app, Hs. split; reflexivity.
    + exists (lit "    "). split; reflexivity.
Qed.

Lemma display_string_layout_witness :
  exists pad, to_display_string dry_run_flag =
    lit "[ ] " ++ lit "    --dry-run" ++ pad ++ lit " | " ++ desc dry_run_flag /\
    Forall (fun c => c = 32) pad /\ List.length (lit "    --dry-run" ++ pad) = 25%nat.
Proof.
  apply (display_string_layout dry_run_flag). vm_compute. lia.
Defined.

(** X14: [run_with_timeout] kills the child exactly when it reports a
    timeout. *)
Theorem poll_loop_kill_iff_timeout timeout_ms output polls r killed :
  poll_loop timeout_ms output polls = Some (r, killed) ->
  (killed = true <-> r = Err Timeout).
Proof.
  induction polls as [|p ps IH]; simpl; [discriminate|].
  destruct (poll_status p).
  - intros H. injection H as <- <-.
    destruct output as [[[|] out]|]; split; discriminate.
  - destruct (timeout_ms <? poll_elapsed_ms p); [|exact IH].
    intros H. injection H as <- <-. tauto.
  - intros H. injection H as <- <-. split; discriminate.
Qed.

Lemma poll_loop_kill_iff_timeout_witness :
  poll_loop 1000 None [{| poll_elapsed_ms := 1050; poll_status := StillRunning |}]
    = Some (Err Timeout, true) /\
  (true = true <-> @Err text Timeout = Err Timeout).
Proof.
  split; [reflexivity|].
  apply (poll_loop_kill_iff_timeout 1000 None
           [{| poll_elapsed_ms := 1050; poll_status := StillRunning |}]).
  reflexivity.
Defined.

Lemma poll_loop_times_out_from timeout_ms output polls k0 :
  polls <> [] ->
  Forall (fun p => poll_status p = StillRunning) polls ->
  (forall k p, nth_error polls k = Some p -> 50 * Z.of_nat (k0 + k) <= poll_elapsed_ms p) ->
  timeout_ms < 50 * Z.of_nat (k0 + List.length polls - 1) ->
  poll_loop timeout_ms output polls = Some (Err Timeout, true).
Proof.
  revert k0. induction polls as [|p ps IH]; intros k0 Hne Hrun Htime Hlt; [congruence|].
  inversion Hrun as [|? ? Hp Hps]; subst. simpl. rewrite Hp.
  pose proof (Htime 0%nat p eq_refl) as H0.
  destruct (Z.ltb_spec timeout_ms (poll_elapsed_ms p)) as [Hto|Hto]; [reflexivity|].
  destruct ps as [|q qs].
  - cbn [List.length] in Hlt. lia.
  - apply (IH (S k0)); [discriminate | exact Hps | |].
    + intros k r Hr. specialize (Htime (S k) r Hr). now rewrite <- Nat.add_succ_comm in Htime.
    + cbn [List.length] in *. lia.
Qed.

(** X15: a child that never exits is killed with [Timeout]: since each
    iteration sleeps 50 ms, the k-th poll reads at least 50·k ms, and once
    more polls are made than [timeout/50 + 1] the loop has returned
    [Timeout] after calling [kill]. *)
Theorem poll_loop_times_out timeout_ms output polls :
  0 <= timeout_ms ->
  Forall (fun p => poll_status p = StillRunning) polls ->
  (forall k p, nth_error polls k = Some p -> 50 * Z.of_nat k <= poll_elapsed_ms p) ->
  timeout_ms < 50 * Z.of_nat (List.length polls - 1) ->
  poll_loop timeout_ms output polls = Some (Err Timeout, true).
Proof.
  intros H0 Hrun Htime Hlt. apply (poll_loop_times_out_from _ _ _ 0%nat).
  - intros ->. simpl in Hlt. lia.
  - exact Hrun.
  - exact Htime.
  - exact Hlt.
Qed.

Lemma poll_loop_times_out_witness :
  poll_loop 1000 None (running_polls 22) = Some (Err Timeout, true).
Proof.
  apply poll_loop_times_out.
  - lia.
  - vm_compute. repeat constructor.
  - intros k p Hp. unfold running_polls in Hp. rewrite nth_error_map in Hp.
    rewrite nth_error_seq in Hp.
    destruct (Nat.ltb k 22); [|discriminate].
    injection Hp as <-. cbv beta. cbn [poll_elapsed_ms]. apply Z.le_refl.
  - vm_compute. reflexivity.
Defined.

(** X16: a child that exits before the timeout has passed is never
    killed, and its outcome is reported: its stdout on a successful exit,
    [CommandFailed] on a failing one. *)
Theorem poll_loop_exit_before_deadline timeout_ms output pre p rest :
  Forall (fun q => poll_status q = StillRunning /\ poll_elapsed_ms q <= timeout_ms) pre ->
  poll_status p = Exited ->
  poll_loop timeout_ms output (pre ++ p :: rest) =
    Some (match output with
          | Some (true, out) => Ok out
          | Some (false, _) => Err CommandFailed
          | None => Err SpawnFailed
          end, false).
Proof.
  intros Hpre Hp. induction Hpre as [|q qs [Hq Hle] _ IH]; simpl.
  - now rewrite Hp.
  - rewrite Hq. destruct (Z.ltb_spec timeout_ms (poll_elapsed_ms q)); [lia|exact IH].
Qed.

Lemma poll_loop_exit_before_deadline_witness :
  poll_loop 1000 (Some (true, lit "usage"))
    [{| poll_elapsed_ms := 0; poll_status := StillRunning |};
     {| poll_elapsed_ms := 60; poll_status := Exited |}] = Some (Ok (lit "usage"), false).
Proof.
  apply (poll_loop_exit_before_deadline 1000 (Some (true, lit "usage"))
           [{| poll_elapsed_ms := 0; poll_status := StillRunning |}]
           {| poll_elapsed_ms := 60; poll_status := Exited |} []).
  - constructor; [split; [reflexivity | simpl; lia] | constructor].
  - reflexivity.
Defined.

Lemma handle_key_quit run app code a :
  quit_action code = Some a -> handle_key run app code = with_exit app a.
Proof.
  destruct code as [c| | | | |]; simpl; try discriminate; try (intros [= <-]; reflexivity).
  destruct (c =? 113); [now intros [= <-]|].
  destruct (c =? 112) eqn:Ep; [|discriminate]. intros [= <-].
  apply Z.eqb_eq in Ep. subst c. reflexivity.
Qed.

Lemma next_fields app :
  target_cmd (next app) = target_cmd app /\ should_quit (next app) = should_quit app /\
  exit_action (next app) = exit_action app.
Proof. unfold next. destruct (flags app); repeat split. Qed.

Lemma previous_fields app :
  target_cmd (previous app) = target_cmd app /\ should_quit (previous app) = should_quit app /\
  exit_action (previous app) = exit_action app.
Proof. unfold previous. destruct (flags app); repeat split. Qed.

Lemma toggle_selection_fields app :
  target_cmd (toggle_selection app) = target_cmd app /\
  should_quit (toggle_selection app) = should_quit app /\
  exit_action (toggle_selection app) = exit_action app.
Proof.
  unfold toggle_selection. destruct (list_state app); [|repeat split].
  destruct (Nat.ltb _ _); repeat split.
Qed.

Lemma toggle_language_fields run app :
  target_cmd (toggle_language run app) = target_cmd app /\
  should_quit (toggle_language run app) = should_quit app /\
  exit_action (toggle_language run app) = exit_action app.
Proof.
  unfold toggle_language. destruct (fetch_flags _ _ _); repeat split.
Qed.

Lemma handle_key_fields run app code :
  target_cmd (handle_key run app code) = target_cmd app /\
  (quit_action code = None ->
   should_quit (handle_key run app code) = should_quit app /\
   exit_action (handle_key run app code) = exit_action app).
Proof.
  destruct code as [c| | | | |]; simpl;
    try (split; [reflexivity | discriminate]);
    try (pose proof (next_fields app); pose proof (previous_fields app); tauto).
  - destruct (c =? 113); [split; [reflexivity | discriminate]|].
    destruct (c =? 106); [pose proof (next_fields app); tauto|].
    destruct (c =? 107); [pose proof (previous_fields app); tauto|].
    destruct (c =? 32); [pose proof (toggle_selection_fields app); tauto|].
    destruct (c =? 112); [split; [reflexivity | discriminate]|].
    destruct (c =? 108); [pose proof (toggle_language_fields run app); tauto|].
    tauto.
Qed.

Lemma handle_input_fields run app i :
  target_cmd (handle_input run app i) = target_cmd app /\
  (match i with EventRead (KeyEvent c Press) => quit_action c = None | _ => True end ->
   should_quit (handle_input run app i) = should_quit app /\
   exit_action (handle_input run app i) = exit_action app).
Proof.
  destruct i as [| | |[code [| |]|]]; simpl; try tauto. apply handle_key_fields.
Qed.

Lemma run_app_continue run app t rest :
  should_quit app = false -> tick_ends t = None ->
  should_quit (tick_step run app t) = false /\
  run_app run app (t :: rest) = run_app run (tick_step run app t) rest.
Proof.
  intros Hq He. destruct t as [[s|] inp]; unfold tick_ends in He; cbn [tick_draw tick_input] in He;
    [|discriminate].
  assert (Hi : match inp with EventRead (KeyEvent c Press) => quit_action c = None | _ => True end).
  { destruct inp as [| | |[c [| |]|]]; try discriminate; try exact I.
    destruct (quit_action c); [discriminate | reflexivity]. }
  destruct (handle_input_fields run (with_list_state app s) inp) as [_ Hf].
  assert (Hsq : should_quit (handle_input run (with_list_state app s) inp) = false)
    by (rewrite (proj1 (Hf Hi)); exact Hq).
  unfold tick_step, after_draw. cbn [tick_draw tick_input run_app].
  split; [exact Hsq|].
  destruct inp as [| | |ev]; try discriminate; cbv zeta; rewrite Hsq; reflexivity.
Qed.

Lemma run_app_stops run app pre t post e :
  should_quit app = false ->
  Forall (fun t => tick_ends t = None) pre ->
  tick_ends t = Some e ->
  run_app run app (pre ++ t :: post) =
    Some (match e with
          | None => UiErr
          | Some a => UiOk (with_exit (after_draw (fold_left (tick_step run) pre app) t) a)
          end).
Proof.
  intros Hq Hpre He. revert app Hq.
  induction Hpre as [|t0 ts Ht0 _ IH]; intros app Hq.
  - cbn [List.app]. destruct t as [[s|] inp]; unfold tick_ends in He; cbn [tick_draw tick_input] in He.
    + cbn [run_app tick_draw tick_input]. cbn [fold_left after_draw tick_draw].
      destruct inp as [| | |[code [| |]|]]; try discriminate;
        try (injection He as <-; reflexivity).
      destruct (quit_action code) as [a|] eqn:Q; [|discriminate].
      injection He as <-. cbv zeta. cbn [handle_input].
      rewrite (handle_key_quit run _ code a Q). reflexivity.
    + injection He as <-. reflexivity.
  - cbn [List.app]. destruct (run_app_continue run app t0 (ts ++ t :: post) Hq Ht0) as [Hq' ->].
    rewrite (IH _ Hq'). reflexivity.
Qed.

(** X17: the event loop ends at the first iteration whose drawing, polling
    or reading fails, or that reads a press of [q], [Esc], [Enter] or [p]:
    on a failure it returns the error, on such a key the exit action that
    key chooses, in the state the earlier iterations and this one's drawing
    left.  Later iterations never happen. *)
Theorem run_app_first_quit run app pre t post e :
  should_quit app = false ->
  Forall (fun t => tick_ends t = None) pre ->
  tick_ends t = Some e ->
  run_app run app (pre ++ t :: post) =
    Some (match e with
          | None => UiErr
          | Some a => UiOk (with_exit (after_draw (fold_left (tick_step run) pre app) t) a)
          end).
Proof.
  exact (run_app_stops run app pre t post e).
Qed.

Lemma run_app_first_quit_witness :
  run_app sample_run (app_new (lit "cp") [dry_run_flag])
    [{| tick_draw := Some (Some 0%nat); tick_input := NoEvent |};
     key_tick (Some 0%nat) KDown; key_tick (Some 0%nat) (KChar 32);
     key_tick (Some 0%nat) (KChar 112); key_tick (Some 0%nat) KEnter]
  = Some (UiOk (with_exit (after_draw
       (fold_left (tick_step sample_run)
          [{| tick_draw := Some (Some 0%nat); tick_input := NoEvent |};
           key_tick (Some 0%nat) KDown; key_tick (Some 0%nat) (KChar 32)]
          (app_new (lit "cp") [dry_run_flag]))
       (key_tick (Some 0%nat) (KChar 112))) Print)).
Proof.
  apply (run_app_first_quit sample_run (app_new (lit "cp") [dry_run_flag])
           [{| tick_draw := Some (Some 0%nat); tick_input := NoEvent |};
            key_tick (Some 0%nat) KDown; key_tick (Some 0%nat) (KChar 32)]
           (key_tick (Some 0%nat) (KChar 112)) [key_tick (Some 0%nat) KEnter] (Some Print)).
  - reflexivity.
  - repeat constructor.
  - reflexivity.
Defined.

Lemma run_app_target run app ticks app' :
  run_app run app ticks = Some (UiOk app') -> target_cmd app' = target_cmd app.
Proof.
  revert app. induction ticks as [|[[s|] inp] ts IH]; intros app;
    cbn [run_app tick_draw tick_input]; try discriminate.
  destruct inp as [| | |ev]; try discriminate; cbv zeta;
    match goal with |- context [should_quit (handle_input run ?a ?i)] =>
      destruct (handle_input_fields run a i) as [Ht _];
      destruct (should_quit (handle_input run a i)) end;
    [intros [= <-]; exact Ht | intros H; rewrite (IH _ H); exact Ht
    |intros [= <-]; exact Ht | intros H; rewrite (IH _ H); exact Ht].
Qed.

(** X18: whatever happens on the terminal and whatever keys are pressed
    (language switches included), [main] only ever launches the command
    named on its command line ([ls] when there is none), and the line it
    prints starts with that command too. *)
Theorem main_runs_named_command run argv setup_ok ticks teardown_ok :
  (forall p args, main_model run argv setup_ok ticks teardown_ok = Launched p args ->
     p = main_target argv) /\
  (forall line, main_model run argv setup_ok ticks teardown_ok = Printed line ->
     exists args, line = join (lit " ") (main_target argv :: args)).
Proof.
  unfold main_model. cbv zeta.
  destruct (fetch_flags run (main_target argv) System) as [fs|e]; [|split; discriminate].
  destruct setup_ok; cbn [negb]; [|split; discriminate].
  destruct (run_app run (app_new (main_target argv) fs) ticks) as [r|] eqn:E;
    [|split; discriminate].
  destruct teardown_ok; cbn [negb]; [|split; discriminate].
  destruct r as [app|]; [|split; discriminate].
  pose proof (run_app_target _ _ _ _ E) as Ht. simpl in Ht.
  destruct (exit_action app); split; try discriminate.
  - intros p args [= <- _]. exact Ht.
  - intros line [= <-]. exists (get_selected_args app).
    rewrite build_preview_join, Ht. reflexivity.
Qed.

Lemma idle_tick_step run app t :
  idle_tick t = true ->
  tick_ends t = None /\ exists s, tick_step run app t = with_list_state app s.
Proof.
  destruct t as [[s|] inp]; unfold idle_tick; cbn [tick_draw tick_input]; [|discriminate].
  destruct inp as [| | |[code [| |]|]]; try discriminate; intros _;
    split; try reflexivity; exists s; reflexivity.
Qed.

Lemma idle_fold run pre app :
  Forall (fun t => idle_tick t = true) pre ->
  flags (fold_left (tick_step run) pre app) = flags app /\
  target_cmd (fold_left (tick_step run) pre app) = target_cmd app.
Proof.
  intros H. revert app. induction H as [|t ts Ht _ IH]; intros app; [split; reflexivity|].
  simpl. destruct (idle_tick_step run app t Ht) as [_ [s ->]].
  destruct (IH (with_list_state app s)) as [-> ->]. split; reflexivity.
Qed.

Lemma get_selected_args_flags a b :
  flags a = flags b -> get_selected_args a = get_selected_args b.
Proof. unfold get_selected_args. intros ->. reflexivity. Qed.

(** X19: if [Enter] is the first key pressed (after any number of
    iterations with no event, with other events or with key releases), and
    the terminal set-up and tear-down succeed, [main] launches the command
    with no argument: it starts with every flag unselected. *)
Theorem main_enter_first run argv fs pre s post :
  fetch_flags run (main_target argv) System = Ok fs ->
  Forall (fun t => idle_tick t = true) pre ->
  main_model run argv true (pre ++ key_tick s KEnter :: post) true = Launched (main_target argv) [].
Proof.
  intros H Hpre. unfold main_model. cbv zeta. rewrite H. cbn [negb].
  rewrite (run_app_stops run _ pre _ post (Some Execute)); [| reflexivity | | reflexivity].
  2: { eapply Forall_impl; [|exact Hpre]. intros t Ht. exact (proj1 (idle_tick_step run (app_new (main_target argv) fs) t Ht)). }
  cbn [exit_action with_exit].
  destruct (idle_fold run pre (app_new (main_target argv) fs) Hpre) as [Hf Ht].
  f_equal.
  - exact Ht.
  - transitivity (get_selected_args (app_new (main_target argv) fs));
      [apply get_selected_args_flags; exact Hf|].
    destruct (fetch_flags_ok _ _ _ _ H) as (t & _ & Htx).
    pose proof (extract_unselected t fs Htx) as Hun.
    unfold get_selected_args. simpl.
    replace (filter selected fs) with (@nil Flag); [reflexivity|].
    clear H Htx Hf Ht. induction Hun as [|f fs' Hf _ IH]; [reflexivity|]. simpl. rewrite Hf. exact IH.
Qed.

Lemma main_enter_first_witness :
  main_model sample_run [lit "man_help"] true
    [{| tick_draw := Some (Some 0%nat); tick_input := NoEvent |};
     {| tick_draw := Some (Some 0%nat); tick_input := EventRead OtherEvent |};
     {| tick_draw := Some (Some 0%nat); tick_input := EventRead (KeyEvent (KChar 32) Release) |};
     key_tick (Some 0%nat) KEnter] true = Launched (lit "ls") [].
Proof.
  apply (main_enter_first sample_run [lit "man_help"] (collect_flags (captures_iter sample_help))
           [{| tick_draw := Some (Some 0%nat); tick_input := NoEvent |};
            {| tick_draw := Some (Some 0%nat); tick_input := EventRead OtherEvent |};
            {| tick_draw := Some (Some 0%nat); tick_input := EventRead (KeyEvent (KChar 32) Release) |}]
           (Some 0%nat) []).
  - vm_compute. reflexivity.
  - repeat constructor.
Defined.

(** X11: after the same interaction, pressing [p] instead of [Enter] prints
    exactly the command line that [Enter] launches: the program followed by
    the selected arguments, joined by single spaces. *)
Theorem preview_is_launched_command run argv fs pre s post post' :
  fetch_flags run (main_target argv) System = Ok fs ->
  Forall (fun t => tick_ends t = None) pre ->
  exists p args,
    main_model run argv true (pre ++ key_tick s KEnter :: post) true = Launched p args /\
    main_model run argv true (pre ++ key_tick s (KChar 112) :: post') true =
      Printed (join (lit " ") (p :: args)).
Proof.
  intros H Hpre. unfold main_model. cbv zeta. rewrite H. cbn [negb].
  rewrite (run_app_stops run _ pre _ post (Some Execute)) by (reflexivity || exact Hpre).
  rewrite (run_app_stops run _ pre _ post' (Some Print)) by (reflexivity || exact Hpre).
  cbn [exit_action with_exit].
  eexists. eexists. split; [reflexivity|].
  rewrite build_preview_join. reflexivity.
Qed.

Lemma preview_is_launched_command_witness :
  exists p args,
    main_model sample_run [lit "cp"; lit "cp"] true
      ([key_tick (Some 0%nat) (KChar 32)] ++ key_tick (Some 1%nat) KEnter :: []) true = Launched p args /\
    main_model sample_run [lit "cp"; lit "cp"] true
      ([key_tick (Some 0%nat) (KChar 32)] ++ key_tick (Some 1%nat) (KChar 112) :: []) true =
      Printed (join (lit " ") (p :: args)).
Proof.
  apply (preview_is_launched_command sample_run [lit "cp"; lit "cp"]
           (collect_flags (captures_iter sample_help))).
  - vm_compute. reflexivity.
  - repeat constructor.
Defined.
